(** * zzz-Secure: rate-limit stores, suspicion scripts and the shield gate

    A shallow embedding of
    - the two Redis Lua scripts [scripts.increment] and [scripts.flushExpired],
    - [MemoryLeakyBucketStore] (in-memory leaky bucket),
    - [PostgresTokenBucketStore] (token bucket over a SQL table),
    - [detectMaliciousRequest] and [ZShield.middleware],
    together with the properties the specification states about them.

    Conventions.  Wall-clock readings ([Date.now()], Redis [TIME]) are
    explicit arguments.  JavaScript and Lua numbers that the code keeps
    integral are in [Z]; the real-valued quantities of the leaky bucket and
    of the refill arithmetic are exact rationals in [Q]: the rounding of
    IEEE doubles is not modelled, and a division by zero, which gives an
    infinity or NaN in JavaScript, is excluded by hypothesis where a
    statement depends on the quotient.  A [Map] or a table keyed by text is
    a [gmap string _]. *)

From Stdlib Require Import ZArith QArith Qround Qminmax Qabs Lia Lqa.
From stdpp Require Import gmap strings list fin_maps.

Open Scope Z_scope.

(** ** The suspicion scripts (Redis, Lua) *)

Module Suspicion.

(** The hash stored under a client key.  Both [HMSET] calls that create a
    hash write the three fields, so a stored hash always carries them. *)
Record SuspicionRecord := mkRecord {
  score : Z;
  expiry : Z;
  isBlocked : bool
}.

#[global] Instance SuspicionRecord_eq_dec : EqDecision SuspicionRecord.
Proof. solve_decision. Defined.

(** [tonumber(redis.call('TIME')[1]) * 1000] *)
Definition now_ms (secs : Z) : Z := secs * 1000.

(** [scripts.increment], run at Redis time [secs] (in seconds).
    [HGET key 'score'] is [nil] exactly when the key is absent; the third
    [HMSET] leaves the field [isBlocked] as it was. *)
Definition increment (key : string) (suspicionThreshold blockDurationMs ttl : Z)
    (secs : Z) (db : gmap string SuspicionRecord)
    : gmap string SuspicionRecord * Z :=
  let now := now_ms secs in
  let fresh := (<[key := mkRecord 1 (now + ttl) false]> db, 1) in
  match db !! key with
  | None => fresh
  | Some r =>
      if expiry r <=? now then fresh
      else
        let value := score r + 1 in
        if value >=? suspicionThreshold then
          (<[key := mkRecord value (now + blockDurationMs) true]> db, value)
        else
          (<[key := mkRecord value (now + ttl) (isBlocked r)]> db, value)
  end.

(** The [for _, key in ipairs(keys)] loop of [scripts.flushExpired].
    [None] is the Lua error raised by [tonumber(expiry) <= now] when
    [HGET] answers [nil]. *)
Fixpoint sweep (now : Z) (keys : list string)
    (db : gmap string SuspicionRecord) (deleted : Z)
    : option (gmap string SuspicionRecord * Z) :=
  match keys with
  | [] => Some (db, deleted)
  | key :: rest =>
      match db !! key with
      | None => None
      | Some r =>
          if expiry r <=? now
          then sweep now rest (delete key db) (deleted + 1)
          else sweep now rest db deleted
      end
  end.

(** [scripts.flushExpired]: [KEYS '*'] lists every key once. *)
Definition flushExpired (secs : Z) (db : gmap string SuspicionRecord)
    : option (gmap string SuspicionRecord * Z) :=
  sweep (now_ms secs) (elements (dom db)) db 0.

(** A record is stale at [now] when the script's test [expiry <= now] holds. *)
Definition stale (now : Z) (kr : string * SuspicionRecord) : Prop :=
  expiry kr.2 ≤ now.

#[global] Instance stale_dec now kr : Decision (stale now kr).
Proof. unfold stale. apply _. Defined.

(** What the loop has removed once it has walked through [keys]. *)
Definition doomed (now : Z) (keys : list string)
    (kr : string * SuspicionRecord) : Prop :=
  kr.1 ∈ keys ∧ stale now kr.

#[global] Instance doomed_dec now keys kr : Decision (doomed now keys kr).
Proof. unfold doomed. apply _. Defined.

(** The record invariant of the specification's data model. *)
Definition record_ok (thr : Z) (r : SuspicionRecord) : Prop :=
  0 ≤ score r ∧ (isBlocked r = true → thr ≤ score r).

(** Stores that the two scripts can produce for one configured threshold,
    starting from an empty database; block duration, ttl and the clock
    are free at every call. *)
Inductive reachable (threshold : Z) : gmap string SuspicionRecord → Prop :=
| reach_empty : reachable threshold ∅
| reach_increment db key blockDurationMs ttl secs :
    reachable threshold db →
    reachable threshold (increment key threshold blockDurationMs ttl secs db).1
| reach_flush db secs db' n :
    reachable threshold db →
    flushExpired secs db = Some (db', n) →
    reachable threshold db'.

(** [n] suspicious hits from one key at Redis time 100 s, with threshold 5,
    a block of 60 s and a ttl of 1 s: the scores returned and the store. *)
Fixpoint hits (n : nat) (key : string) (db : gmap string SuspicionRecord)
    : list Z * gmap string SuspicionRecord :=
  match n with
  | O => ([], db)
  | S n =>
      let '(db, score) := increment key 5 60000 1000 100 db in
      let '(scores, db) := hits n key db in
      (score :: scores, db)
  end.

End Suspicion.

(** ** The value both rate-limit stores return *)

(** [ClientRateLimitInfo]: [resetTime] is the millisecond value handed to
    [new Date(...)]; the Date the caller receives is [new_Date] of it. *)
Record ClientRateLimitInfo := mkInfo {
  totalHits : Q;
  resetTime : Q
}.


(** ** MemoryLeakyBucketStore *)

Module LeakyBucket.

(** [type Client]; [lastUpdated] holds a [Date.now()] reading. *)
Record Client := mkClient {
  remaining : Q;
  lastUpdated : Z
}.

(** The two options [init] reads; [max] is [None] when
    [typeof options.max] is not ['number'], [windowMs] is [None] when it
    is null or undefined. *)
Record Options := mkOptions {
  max : option Q;
  windowMs : option Q
}.

Record Store := mkStore {
  bucketCapacity : Q;
  leakRate : Q;
  clients : gmap string Client
}.

Definition set_clients (st : Store) (cs : gmap string Client) : Store :=
  mkStore (bucketCapacity st) (leakRate st) cs.

(** [init(options)] *)
Definition init (options : Options) (st : Store) : Store :=
  let capacity := default (10 : Q) (max options) in
  mkStore capacity (capacity / default (60000 : Q) (windowMs options))%Q
    (clients st).

(** A store as [new MemoryLeakyBucketStore()] followed by [init]. *)
Definition create (options : Options) : Store :=
  init options (mkStore 0 0 ∅).

(** [updateBucket(client)] at clock reading [now]; the caller writes the
    result back under the client's key, as the source mutates the object
    held by the map. *)
Definition updateBucket (st : Store) (now : Z) (client : Client) : Client :=
  let elapsedTime := now - lastUpdated client in
  let leaked := (inject_Z elapsedTime * leakRate st)%Q in
  mkClient (Qmin (remaining client + leaked) (bucketCapacity st)) now.

(** [lastUpdated + bucketCapacity / leakRate], the argument of [new Date]. *)
Definition resetAt (st : Store) (client : Client) : Q :=
  (inject_Z (lastUpdated client) + bucketCapacity st / leakRate st)%Q.

(** [getClient(key)]: the stored client, or a fresh full one. *)
Definition getClient (st : Store) (key : string) (now : Z) : Client :=
  match clients st !! key with
  | Some client => client
  | None => mkClient (bucketCapacity st) now
  end.

(** [get(key)] at clock reading [now]. *)
Definition get (key : string) (now : Z) (st : Store)
    : option ClientRateLimitInfo * Store :=
  match clients st !! key with
  | None => (None, st)
  | Some client =>
      let client := updateBucket st now client in
      (Some (mkInfo (remaining client) (resetAt st client)),
       set_clients st (<[key := client]> (clients st)))
  end.

(** [increment(key)] at clock reading [now] (the readings taken by
    [getClient] and [updateBucket] within one call coincide). *)
Definition increment (key : string) (now : Z) (st : Store)
    : ClientRateLimitInfo * Store :=
  let client := getClient st key now in
  let client := updateBucket st now client in
  if Qle_bool (remaining client) 0 then
    (mkInfo 0 (resetAt st client),
     set_clients st (<[key := client]> (clients st)))
  else
    let client := mkClient (remaining client - 1) (lastUpdated client) in
    (mkInfo (remaining client) (resetAt st client),
     set_clients st (<[key := client]> (clients st))).

(** [decrement(key)] *)
Definition decrement (key : string) (st : Store) : Store :=
  match clients st !! key with
  | Some client =>
      let client :=
        mkClient (Qmin (remaining client + 1) (bucketCapacity st))
                 (lastUpdated client) in
      set_clients st (<[key := client]> (clients st))
  | None => st
  end.

(** [resetKey(key)] *)
Definition resetKey (key : string) (st : Store) : Store :=
  set_clients st (delete key (clients st)).

(** [resetAll()] *)
Definition resetAll (st : Store) : Store :=
  set_clients st ∅.

(** A call on the store, with the clock reading it observes. *)
Inductive Op :=
| OpIncrement (key : string) (now : Z)
| OpDecrement (key : string)
| OpGet (key : string) (now : Z)
| OpResetKey (key : string)
| OpResetAll.

Definition step (st : Store) (op : Op) : Store :=
  match op with
  | OpIncrement key now => (increment key now st).2
  | OpDecrement key => decrement key st
  | OpGet key now => (get key now st).2
  | OpResetKey key => resetKey key st
  | OpResetAll => resetAll st
  end.

Definition run (st : Store) (ops : list Op) : Store :=
  foldl step st ops.

(** The bound of the data model on one record. *)
Definition in_bounds (st : Store) (client : Client) : Prop :=
  (0 <= remaining client)%Q ∧ (remaining client <= bucketCapacity st)%Q.

(** The upper half of the bound, on every record of a store. *)
Definition capped (st : Store) : Prop :=
  ∀ key c, clients st !! key = Some c → (remaining c <= bucketCapacity st)%Q.

(** A store with the default options, and ten hits in the same
    millisecond from one client. *)
Definition default_store : Store := create (mkOptions None None).
Definition burst : list Op := repeat (OpIncrement "203.0.113.9" 0) 10.

End LeakyBucket.

(** ** PostgresTokenBucketStore *)

Module TokenBucket.

(** A row of [token_buckets]; the key column is the map key. *)
Record Row := mkRow {
  tokens : Z;
  last_refill_time : Z
}.

(** [BucketOptions]: [None] is a null or undefined [refillRate], and a
    [maxTokens] that is not a number. *)
Record BucketOptions := mkBucketOptions {
  refillRate : option Q;
  maxTokens : option Z
}.

Record Config := mkConfig {
  refillInterval : Q;
  bucketCapacity : Z;
  tokensPerInterval : Q
}.

(** The assignments of [init(options)]; [??] binds looser than [/]. *)
Definition init (options : BucketOptions) : Config :=
  let refillInterval := (1000 / default (1 : Q) (refillRate options))%Q in
  let bucketCapacity := default 10 (maxTokens options) in
  let tokensPerInterval :=
    match refillRate options with
    | Some r => r
    | None => (1 / (refillInterval / 1000))%Q
    end in
  mkConfig refillInterval bucketCapacity tokensPerInterval.

(** *** The database seen through one pooled connection *)

(** The failure a rejected promise carries. *)
Definition Err := string.

(** The awaited calls that can reject. *)
Inductive Step :=
| SConnect      (* pool.connect() *)
| SBegin        (* client.query('BEGIN') *)
| SSelect       (* SELECT ... FOR UPDATE *)
| SUpsert       (* INSERT ... ON CONFLICT DO UPDATE *)
| SUpdate       (* UPDATE token_buckets SET tokens *)
| SCommit       (* client.query('COMMIT') *)
| SRollback     (* client.query('ROLLBACK') *)
| SPoolQuery.   (* pool.query(...) *)

#[global] Instance Step_eq_dec : EqDecision Step.
Proof. solve_decision. Defined.

Inductive Event :=
| Attempt (s : Step)
| Release.      (* client.release() *)

#[global] Instance Event_eq_dec : EqDecision Event.
Proof. solve_decision. Defined.

(** [table] is the committed table, [txn] the working copy of the
    transaction open on the checked-out connection, [held] the number of
    connections checked out of the pool, [log] the calls made so far, and
    [faults] tells which calls reject, and with what. *)
Record World := mkWorld {
  table : gmap string Row;
  txn : option (gmap string Row);
  held : nat;
  log : list Event;
  faults : Step → option Err
}.

Definition set_table (w : World) (t : gmap string Row) : World :=
  mkWorld t (txn w) (held w) (log w) (faults w).
Definition set_txn (w : World) (x : option (gmap string Row)) : World :=
  mkWorld (table w) x (held w) (log w) (faults w).
Definition set_held (w : World) (n : nat) : World :=
  mkWorld (table w) (txn w) n (log w) (faults w).
Definition record (w : World) (e : Event) : World :=
  mkWorld (table w) (txn w) (held w) (log w ++ [e]) (faults w).

(** What a statement on the connection reads. *)
Definition view (w : World) : gmap string Row :=
  default (table w) (txn w).

(** A statement on the connection writes into the open transaction, or
    straight into the table when none is open. *)
Definition write (f : gmap string Row → gmap string Row) (w : World) : World :=
  match txn w with
  | Some t => set_txn w (Some (f t))
  | None => set_table w (f (table w))
  end.

(** *** Promises: state and rejection *)

Inductive Outcome (A : Type) :=
| Ok (a : A)
| Throw (e : Err).
Arguments Ok {A} a.
Arguments Throw {A} e.

Definition M (A : Type) : Type := World → Outcome A * World.

Definition throw {A} (e : Err) : M A := λ w, (Throw e, w).

#[global] Instance M_ret : MRet M := λ A a w, (Ok a, w).
#[global] Instance M_bind : MBind M := λ A B k m w,
  match m w with
  | (Ok a, w1) => k a w1
  | (Throw e, w1) => (Throw e, w1)
  end.

(** [try { body } catch (error) { handler } finally { fin }] *)
Definition try_catch_finally {A} (body : M A) (handler : Err → M A)
    (fin : M unit) : M A :=
  λ w,
    let '(o, w1) :=
      match body w with
      | (Ok a, w1) => (Ok a, w1)
      | (Throw e, w1) => handler e w1
      end in
    match fin w1 with
    | (Ok _, w2) => (o, w2)
    | (Throw e, w2) => (Throw e, w2)
    end.

(** An awaited call: logged, then rejected if [faults] says so (leaving
    the database as it was), else performed. *)
Definition attempt {A} (s : Step) (effect : World → A * World) : M A :=
  λ w,
    let w1 := record w (Attempt s) in
    match faults w s with
    | Some e => (Throw e, w1)
    | None => let '(a, w2) := effect w1 in (Ok a, w2)
    end.

Definition connect : M unit :=
  attempt SConnect (λ w, (tt, set_held w (S (held w)))).
Definition release : M unit :=
  λ w, (Ok tt, set_held (record w Release) (pred (held w))).
Definition query_begin : M unit :=
  attempt SBegin (λ w, (tt, set_txn w (Some (table w)))).
Definition query_select_for_update (key : string) : M (option Row) :=
  attempt SSelect (λ w, (view w !! key, w)).
Definition query_upsert (key : string) (tok last : Z) : M unit :=
  attempt SUpsert (λ w, (tt, write (insert key (mkRow tok last)) w)).
Definition query_update_tokens (tok : Z) (key : string) : M unit :=
  attempt SUpdate
    (λ w, (tt, write (alter (λ r, mkRow tok (last_refill_time r)) key) w)).
Definition query_commit : M unit :=
  attempt SCommit (λ w, (tt, set_txn (set_table w (view w)) None)).
Definition query_rollback : M unit :=
  attempt SRollback (λ w, (tt, set_txn w None)).
Definition pool_query {A} (effect : gmap string Row → A * gmap string Row)
    : M A :=
  attempt SPoolQuery
    (λ w, let '(a, t) := effect (table w) in (a, set_table w t)).

(** *** The store's methods *)

(** The arithmetic of [increment] between its SELECT and its upsert:
    [updatedTokens] and [lastRefillTime], from the selected row if any. *)
Definition refill (cfg : Config) (now : Z) (result : option Row) : Z * Z :=
  let '(currentTokens, lastRefillTime) :=
    match result with
    | Some row => (tokens row, last_refill_time row)
    | None => (0, now)
    end in
  let elapsedTime := now - lastRefillTime in
  let tokensToAdd :=
    Qfloor ((inject_Z elapsedTime / 1000) * tokensPerInterval cfg)%Q in
  let newTokens := Z.min (currentTokens + tokensToAdd) (bucketCapacity cfg) in
  let canConsume := 0 <? newTokens in
  let updatedTokens := if canConsume then newTokens - 1 else newTokens in
  (updatedTokens, lastRefillTime).

(** [increment(key)], with [now] the reading of [Date.now()]. *)
Definition increment (cfg : Config) (key : string) (now : Z)
    : M ClientRateLimitInfo :=
  connect ;;
  try_catch_finally
    (query_begin ;;
     result ← query_select_for_update key ;
     let '(updatedTokens, lastRefillTime) := refill cfg now result in
     query_upsert key updatedTokens now ;;
     query_commit ;;
     mret (mkInfo (inject_Z updatedTokens)
                  (inject_Z lastRefillTime + refillInterval cfg)%Q))
    (λ error, query_rollback ;; throw error)
    release.

(** [get(key)] *)
Definition get (cfg : Config) (key : string)
    : M (option ClientRateLimitInfo) :=
  result ← pool_query (λ t, (t !! key, t)) ;
  match result with
  | None => mret None
  | Some row =>
      mret (Some (mkInfo (inject_Z (tokens row))
                   (inject_Z (last_refill_time row) + refillInterval cfg)%Q))
  end.

(** [decrement(key)] *)
Definition decrement (cfg : Config) (key : string) : M unit :=
  connect ;;
  try_catch_finally
    (query_begin ;;
     result ← query_select_for_update key ;
     match result with
     | Some row =>
         let currentTokens := tokens row in
         let newTokens := Z.min (currentTokens + 1) (bucketCapacity cfg) in
         query_update_tokens newTokens key
     | None => mret tt
     end ;;
     query_commit)
    (λ error, query_rollback ;; throw error)
    release.

(** [resetKey(key)], with [now] the reading of [Date.now()]. *)
Definition resetKey (cfg : Config) (key : string) (now : Z) : M unit :=
  pool_query (λ t, (tt, <[key := mkRow (bucketCapacity cfg) now]> t)).

(** [resetAll()] *)
Definition resetAll : M unit :=
  pool_query (λ _, (tt, ∅)).

(** A world in which nothing is in progress and no call rejects. *)
Definition quiet (t : gmap string Row) : World :=
  mkWorld t None 0 [] (λ _, None).

(** No connection is checked out and no transaction is open. *)
Definition idle (w : World) : Prop :=
  txn w = None ∧ held w = 0%nat.

(** The first call of [steps], in program order, that [f] makes reject. *)
Fixpoint first_fault (f : Step → option Err) (steps : list Step)
    : option (list Step * Step * Err) :=
  match steps with
  | [] => None
  | s :: rest =>
      match f s with
      | Some e => Some ([], s, e)
      | None =>
          match first_fault f rest with
          | Some (before, s', e) => Some (s :: before, s', e)
          | None => None
          end
      end
  end.

(** The awaited calls inside the [try] block of [increment], in order. *)
Definition increment_steps : list Step := [SBegin; SSelect; SUpsert; SCommit].

(** The same for [decrement]; the UPDATE runs only when the SELECT found a
    row. *)
Definition decrement_steps (present : bool) : list Step :=
  [SBegin; SSelect] ++ (if present then [SUpdate] else []) ++ [SCommit].

(** The bound of the data model on every row of a table. *)
Definition within (cfg : Config) (t : gmap string Row) : Prop :=
  ∀ key row, t !! key = Some row → 0 ≤ tokens row ≤ bucketCapacity cfg.

End TokenBucket.

(** ** The shield: detector and admission gate *)

Module Shield.

(** A field value of a request: a string, or anything else
    ([typeof value === "string"] is false). *)
Inductive JsValue :=
| VString (s : string)
| VOther.

(** The parts of an Express request the shield reads.  [ip] is [None]
    when [req.ip] is undefined. *)
Record Request := mkRequest {
  ip : option string;
  query : gmap string JsValue;
  body : gmap string JsValue;
  params : gmap string JsValue
}.

(** [{ ...req.query, ...req.body, ...req.params }]: a later spread
    overrides an earlier one (stdpp's union keeps the left operand). *)
Definition merged (req : Request) : gmap string JsValue :=
  params req ∪ (body req ∪ query req).

(** [!clientIP]: undefined and the empty string are falsy. *)
Definition falsy (x : option string) : bool :=
  match x with
  | None => true
  | Some s => bool_decide (s = "")
  end.

(** A flag of [ShieldOptions] is truthy only when it is [true]. *)
Definition truthy (flag : option bool) : bool := default false flag.

Section Detector.

(** The regular expressions live in [./detection-patterns], outside the
    sources at hand: a pattern is any value with a [test] method, taken
    here as a function of the string alone. *)
Context {RegExp : Type}.
Variable test : RegExp → string → bool.
Variables detectXSSPatterns detectSQLInjectionPatterns detectLfiPatterns
  : list RegExp.

(** [interface ShieldOptions] without its [store]; [None] is an
    undefined property. *)
Record ShieldOptions := mkShieldOptions {
  suspicionThreshold : option Z;
  blockDurationMs : option Z;
  detectionPatterns : option (list RegExp);
  message : option string;
  csrf : option bool;
  xss : option bool;
  sqlInjection : option bool;
  lfi : option bool;
  rfi : option bool;
  shellInjection : option bool
}.

(** [isAttackDetected(input, patterns)] *)
Definition isAttackDetected (input : gmap string JsValue)
    (patterns : list RegExp) : bool :=
  let values := (map_to_list input).*2 in
  existsb (λ value,
             match value with
             | VString s => existsb (λ pattern, test pattern s) patterns
             | VOther => false
             end) values.

(** [attackTypes.push(name)] under a condition *)
Definition push_if (cond : bool) (name : string) (attackTypes : list string)
    : list string :=
  if cond then attackTypes ++ [name] else attackTypes.

(** [detectMaliciousRequest(req, options)] *)
Definition detectMaliciousRequest (req : Request) (options : ShieldOptions)
    : bool * list string :=
  let attackTypes := [] in
  let attackTypes :=
    push_if (truthy (xss options)
             && isAttackDetected (merged req) detectXSSPatterns)
      "XSS" attackTypes in
  let attackTypes :=
    push_if (truthy (sqlInjection options)
             && isAttackDetected (merged req) detectSQLInjectionPatterns)
      "SQL Injection" attackTypes in
  let attackTypes :=
    push_if (truthy (lfi options)
             && isAttackDetected (merged req) detectLfiPatterns)
      "LFI" attackTypes in
  (bool_decide (0 < length attackTypes)%nat, attackTypes).

(** The argument of the constructor, [Partial<ShieldOptions>]: a
    property is missing ([None]) or present, possibly as undefined. *)
Record PartialOptions := mkPartialOptions {
  p_suspicionThreshold : option (option Z);
  p_blockDurationMs : option (option Z);
  p_detectionPatterns : option (option (list RegExp));
  p_message : option (option string);
  p_csrf : option (option bool);
  p_xss : option (option bool);
  p_sqlInjection : option (option bool);
  p_lfi : option (option bool);
  p_rfi : option (option bool);
  p_shellInjection : option (option bool)
}.

(** The fields of a [ZShield] besides its store. *)
Record ZShield := mkZShield {
  z_suspicionThreshold : Z;
  z_blockDurationMs : Z;
  z_options : ShieldOptions
}.

(** [{ defaults, ...options }]: a present property wins, even undefined. *)
Definition spread {A} (dflt : option A) (given : option (option A))
    : option A :=
  default dflt given.

(** [constructor(options)] *)
Definition constructor (options : PartialOptions) : ZShield :=
  let this_options :=
    mkShieldOptions
      (spread (Some 5) (p_suspicionThreshold options))
      (spread (Some 60000) (p_blockDurationMs options))
      (spread None (p_detectionPatterns options))
      (spread (Some "Access denied due to suspicious activity.")
              (p_message options))
      (spread (Some true) (p_csrf options))
      (spread (Some true) (p_xss options))
      (spread (Some true) (p_sqlInjection options))
      (spread (Some true) (p_lfi options))
      (spread (Some true) (p_rfi options))
      (spread (Some true) (p_shellInjection options)) in
  mkZShield
    (default 5 (suspicionThreshold this_options))
    (default 60000 (blockDurationMs this_options))
    this_options.

(** *** The gate *)

(** The store behind [StoreInterface] is outside the sources at hand:
    any state [S] with the two methods the gate calls. *)
Context {S : Type}.
Variable store_isBlocked : string → S → bool * S.
Variable store_increment : string → Z → S → Z * S.

(** What the middleware does with [res] and [next]. *)
Inductive Response :=
| Deny (error : option string) (detectedAttacks : option (list string))
| Next.

(** The calls the middleware makes. *)
Inductive Call :=
| CallIsBlocked (key : string)
| CallDetect
| CallIncrement (key : string) (blockDurationMs : Z).

(** The middleware's run: the store's state and the calls made so far are
    threaded through, and each call below records itself as it is made. *)
Definition Gate (A : Type) : Type := S * list Call → A * (S * list Call).

#[global] Instance Gate_ret : MRet Gate := λ A (a : A) σ, (a, σ).
#[global] Instance Gate_bind : MBind Gate :=
  λ A B (k : A → Gate B) (m : Gate A) σ, let '(a, σ) := m σ in k a σ.

(** [await this.memoryStore.isBlocked(clientIP)] *)
Definition call_isBlocked (key : string) : Gate bool :=
  λ '(st, calls),
    let '(isBlocked, st) := store_isBlocked key st in
    (isBlocked, (st, calls ++ [CallIsBlocked key])).

(** [detectMaliciousRequest(req, this.options)] *)
Definition call_detect (req : Request) (options : ShieldOptions)
    : Gate (bool * list string) :=
  λ '(st, calls),
    (detectMaliciousRequest req options, (st, calls ++ [CallDetect])).

(** [await this.memoryStore.increment(clientIP, this.blockDurationMs)] *)
Definition call_increment (key : string) (blockDurationMs : Z) : Gate Z :=
  λ '(st, calls),
    let '(currentScore, st) := store_increment key blockDurationMs st in
    (currentScore, (st, calls ++ [CallIncrement key blockDurationMs])).

(** The body of [middleware(req, res, next)]. *)
Definition middleware_body (this : ZShield) (req : Request) : Gate Response :=
  if falsy (ip req) then
    mret (Deny (message (z_options this)) None)
  else
    let clientIP := default "" (ip req) in
    call_isBlocked clientIP ≫= λ isBlocked : bool,
    if isBlocked then
      mret (Deny (message (z_options this)) None)
    else
      call_detect req (z_options this) ≫= λ '(isSuspicious, attackTypes),
      if negb isSuspicious then
        mret Next
      else
        call_increment clientIP (z_blockDurationMs this) ≫= λ currentScore : Z,
        if currentScore >=? z_suspicionThreshold this then
          mret (Deny (message (z_options this)) (Some attackTypes))
        else
          mret Next.

(** [middleware(req, res, next)] on store state [st]: the response, the
    store afterwards and the calls made. *)
Definition middleware (this : ZShield) (req : Request) (st : S)
    : Response * S * list Call :=
  let '(response, (st, calls)) := middleware_body this req (st, []) in
  (response, st, calls).

End Detector.

Arguments ShieldOptions : clear implicits.
Arguments PartialOptions : clear implicits.
Arguments ZShield : clear implicits.

End Shield.

(** ** Scenarios used in the examples *)

Module Scenario.

Definition client : string := "203.0.113.9".

(** A leaky bucket of capacity 10 restoring one unit per second, emptied by
    ten hits at time 1000. *)
Definition leaky10 : LeakyBucket.Store :=
  LeakyBucket.create (LeakyBucket.mkOptions (Some 10%Q) (Some 10000%Q)).
Definition leaky10_empty : LeakyBucket.Store :=
  LeakyBucket.run leaky10 (repeat (LeakyBucket.OpIncrement client 1000) 10).

(** A token bucket of capacity 10 refilled by one token per second; the
    first [increment] of a key, at time 1000, stores it with no tokens. *)
Definition token10 : TokenBucket.Config :=
  TokenBucket.init (TokenBucket.mkBucketOptions (Some 1%Q) (Some 10)).
Definition token10_empty : TokenBucket.World :=
  (TokenBucket.increment token10 client 1000 (TokenBucket.quiet ∅)).2.
Definition token10_used : TokenBucket.World :=
  TokenBucket.quiet {[ client := TokenBucket.mkRow 3 0 ]}.


Definition update_rejects : TokenBucket.Step → option TokenBucket.Err :=
  λ s, if decide (s = TokenBucket.SUpdate) then Some "deadlock detected" else None.

(** Two suspicion records read at Redis time 102 s: the first has expired,
    the second, blocked, has not; and a record one hit below threshold 5. *)
Definition watched : gmap string Suspicion.SuspicionRecord :=
  {[ "198.51.100.4" := Suspicion.mkRecord 3 101000 false;
     client := Suspicion.mkRecord 5 160000 true ]}.
Definition one_below : gmap string Suspicion.SuspicionRecord :=
  {[ client := Suspicion.mkRecord 4 101000 false ]}.


(** A stand-in for a regular expression: a literal, matching the strings
    that contain it. *)
Fixpoint contains (literal s : string) : bool :=
  String.prefix literal s
  || match s with
     | EmptyString => false
     | String _ rest => contains literal rest
     end.

Definition xss_literals : list string := ["<script"].
Definition sql_literals : list string := ["' OR 1=1"].
Definition lfi_literals : list string := ["../"].

(** A stand-in for the store: the score per key, blocked from 5 on. *)
Definition toy_isBlocked (key : string) (st : gmap string Z)
    : bool * gmap string Z :=
  (bool_decide (5 ≤ default 0 (st !! key)), st).
Definition toy_increment (key : string) (blockDurationMs : Z)
    (st : gmap string Z) : Z * gmap string Z :=
  let value := default 0 (st !! key) + 1 in
  (value, <[key := value]> st).

Definition no_options : Shield.PartialOptions string :=
  Shield.mkPartialOptions None None None None None None None None None None.
Definition probe : Shield.Request :=
  Shield.mkRequest (Some client)
    {[ "q" := Shield.VString "<script>alert(1)</script>" ]} ∅
    {[ "id" := Shield.VOther ]}.

(** A request with no address, and one from [client] with nothing in it
    that a pattern matches. *)
Definition unaddressed : Shield.Request :=
  Shield.mkRequest None
    {[ "q" := Shield.VString "<script>alert(1)</script>" ]} ∅ ∅.
Definition harmless : Shield.Request :=
  Shield.mkRequest (Some client) {[ "q" := Shield.VString "tea" ]} ∅ ∅.

End Scenario.

(* ================================================================== *)
(** * Properties *)

(** ** The suspicion scripts *)

Module SuspicionFacts.
Import Suspicion.

Lemma increment_frame key thr blk ttl secs db k :
  k ≠ key → (increment key thr blk ttl secs db).1 !! k = db !! k.
Proof.
  intros Hne. unfold increment.
  destruct (db !! key) as [r|]; simpl.
  - destruct (expiry r <=? now_ms secs); simpl.
    + by rewrite lookup_insert_ne.
    + destruct (score r + 1 >=? thr); simpl; by rewrite lookup_insert_ne.
  - by rewrite lookup_insert_ne.
Qed.

(** C3.  [scripts.increment] is one state transition.  On an absent key,
    or on a record whose expiry is at or before the script's clock, it
    stores score 1, expiry now+ttl, isBlocked false and returns 1 whatever
    the earlier score was.  Otherwise it adds one to the score; at or
    above the threshold it stores isBlocked true with expiry
    now+blockDurationMs, below it stores expiry now+ttl (the blocked
    field untouched).  The value returned is the score now stored, and no
    other key changes. *)
Theorem increment_transition key thr blk ttl secs
    (db : gmap string SuspicionRecord) :
  let now := now_ms secs in
  let db' := (increment key thr blk ttl secs db).1 in
  let ret := (increment key thr blk ttl secs db).2 in
  (db !! key = None →
     db' !! key = Some (mkRecord 1 (now + ttl) false) ∧ ret = 1)
  ∧ (∀ r, db !! key = Some r → expiry r ≤ now →
     db' !! key = Some (mkRecord 1 (now + ttl) false) ∧ ret = 1)
  ∧ (∀ r, db !! key = Some r → now < expiry r → thr ≤ score r + 1 →
     db' !! key = Some (mkRecord (score r + 1) (now + blk) true)
     ∧ ret = score r + 1)
  ∧ (∀ r, db !! key = Some r → now < expiry r → score r + 1 < thr →
     db' !! key = Some (mkRecord (score r + 1) (now + ttl) (isBlocked r))
     ∧ ret = score r + 1)
  ∧ (∃ r', db' !! key = Some r' ∧ ret = score r')
  ∧ (∀ k, k ≠ key → db' !! k = db !! k).
Proof.
  intros now db' ret. subst db' ret. unfold increment. fold now.
  destruct (db !! key) as [r|] eqn:Hk;
    [destruct (Z.leb_spec (expiry r) now) as [Hexp|Hexp];
      [|destruct (Z.geb_spec (score r + 1) thr) as [Hthr|Hthr]]|];
    simpl; rewrite lookup_insert_eq;
    repeat apply conj;
    try (intros; simplify_eq; first [done | lia]);
    try (by eexists);
    intros k Hne; by rewrite lookup_insert_ne.
Qed.

Lemma increment_transition_witness :
  (increment Scenario.client 5 60000 1000 100 Scenario.one_below).1
    !! Scenario.client
  = Some (mkRecord (4 + 1) (now_ms 100 + 60000) true)
  ∧ (increment Scenario.client 5 60000 1000 100 Scenario.one_below).2 = 4 + 1.
Proof.
  apply (proj1 (proj2 (proj2
           (increment_transition Scenario.client 5 60000 1000 100
              Scenario.one_below)))
           (mkRecord 4 101000 false));
    [reflexivity | reflexivity | discriminate].
Defined.

Lemma sweep_spec now keys : ∀ (db : gmap string SuspicionRecord) d,
  NoDup keys →
  (∀ k, k ∈ keys → is_Some (db !! k)) →
  sweep now keys db d =
    Some (filter (λ kr, ¬ doomed now keys kr) db,
          d + Z.of_nat (size (filter (doomed now keys) db))).
Proof.
  induction keys as [|k rest IH]; intros db d Hnd Hall; simpl.
  - f_equal. f_equal.
    + symmetry. apply map_filter_id. intros i x _ [Hin _]. simpl in Hin.
      by apply not_elem_of_nil in Hin.
    + replace (filter (doomed now []) db) with (∅ : gmap string SuspicionRecord).
      * rewrite map_size_empty. lia.
      * symmetry. apply map_empty. intros i.
        apply map_lookup_filter_None. right. intros x _ [Hin _]. simpl in Hin.
        by apply not_elem_of_nil in Hin.
  - apply NoDup_cons in Hnd as [Hk Hnd].
    destruct (Hall k) as [r Hr]; [left|]. rewrite Hr.
    destruct (Z.leb_spec (expiry r) now) as [Hexp|Hexp].
    + rewrite IH; [|done|].
      2:{ intros k' Hk'. rewrite lookup_delete_ne; [|by intros ->].
          apply Hall. by right. }
      f_equal. f_equal.
      * apply map_eq. intros i. apply option_eq. intros x.
        rewrite !map_lookup_filter_Some. unfold doomed, stale. simpl.
        rewrite lookup_delete_Some. split.
        -- intros [[Hne Hi] Hnot]. split; [done|].
           intros [Hin Hst]. apply Hnot. split; [|done].
           apply elem_of_cons in Hin as [->|]; done.
        -- intros [Hi Hnot]. assert (k ≠ i).
           { intros ->. apply Hnot. split; [left|]. by simplify_eq. }
           split; [done|]. intros [Hin Hst]. apply Hnot. split; [by right|done].
      * assert (filter (doomed now (k :: rest)) db
                = <[k:=r]> (filter (doomed now rest) (delete k db))) as ->.
        { apply map_eq. intros i. destruct (decide (i = k)) as [->|Hne].
          - rewrite lookup_insert_eq. apply map_lookup_filter_Some.
            split; [done|]. split; [left|done].
          - rewrite lookup_insert_ne; [|done]. apply option_eq. intros x.
            rewrite !map_lookup_filter_Some. unfold doomed. simpl.
            rewrite lookup_delete_ne; [|done].
            rewrite elem_of_cons. split.
            + intros [Hi [[?|Hin] Hst]]; [done|]. by repeat split.
            + intros [Hi [Hin Hst]]. split; [done|]. by split; [right|]. }
        rewrite map_size_insert_None.
        -- lia.
        -- apply map_lookup_filter_None. left. apply lookup_delete_eq.
    + rewrite IH; [|done|].
      2:{ intros k' Hk'. apply Hall. by right. }
      f_equal. f_equal.
      * apply map_filter_ext. intros i x Hi. unfold doomed, stale. simpl.
        rewrite elem_of_cons. split.
        -- intros Hnot [[->|Hin] Hst]; [|by apply Hnot].
           simplify_eq. lia.
        -- intros Hnot [Hin Hst]. apply Hnot. by split; [right|].
      * f_equal. f_equal. f_equal. apply map_filter_ext. intros i x Hi.
        unfold doomed, stale. simpl. rewrite elem_of_cons. split.
        -- intros [Hin Hst]. by split; [right|].
        -- intros [[->|Hin] Hst]; [|done]. simplify_eq. lia.
Qed.

Lemma flushExpired_eq secs (db : gmap string SuspicionRecord) :
  flushExpired secs db =
    Some (filter (λ kr, ¬ stale (now_ms secs) kr) db,
          Z.of_nat (size (filter (stale (now_ms secs)) db))).
Proof.
  assert (Hkeys : ∀ i (x : SuspicionRecord),
            db !! i = Some x → i ∈ elements (dom db)).
  { intros i x Hi. apply elem_of_elements, elem_of_dom. by eexists. }
  assert (Hkeep : filter (λ kr, ¬ doomed (now_ms secs) (elements (dom db)) kr) db
                  = filter (λ kr, ¬ stale (now_ms secs) kr) db).
  { apply map_filter_ext. intros i x Hi. unfold doomed. simpl. split.
    - intros Hnot Hst. apply Hnot. split; [by eapply Hkeys|done].
    - intros Hnot [_ Hst]. by apply Hnot. }
  assert (Hdrop : filter (doomed (now_ms secs) (elements (dom db))) db
                  = filter (stale (now_ms secs)) db).
  { apply map_filter_ext. intros i x Hi. unfold doomed. simpl.
    split; [by intros [_ ?]|].
    intros Hst. split; [by eapply Hkeys|done]. }
  unfold flushExpired. rewrite sweep_spec.
  - by rewrite Z.add_0_l, Hkeep, Hdrop.
  - apply NoDup_elements.
  - intros k Hk. by apply elem_of_dom, elem_of_elements.
Qed.

(** C6.  [scripts.flushExpired] never fails on a store of suspicion
    records; it deletes every record whose expiry is at or before the
    script's clock, keeps every record whose expiry is later exactly as it
    was, creates nothing, and returns the number of records deleted. *)
Theorem flushExpired_exact secs (db : gmap string SuspicionRecord) :
  let now := now_ms secs in
  ∃ db' n,
    flushExpired secs db = Some (db', n)
    ∧ (∀ k r, db !! k = Some r → expiry r ≤ now → db' !! k = None)
    ∧ (∀ k r, db !! k = Some r → now < expiry r → db' !! k = Some r)
    ∧ (∀ k, db !! k = None → db' !! k = None)
    ∧ n = Z.of_nat (size (filter (stale now) db))
    ∧ n = Z.of_nat (size db) - Z.of_nat (size db').
Proof.
  intros now. eexists _, _. split; [apply flushExpired_eq|]. fold now.
  repeat apply conj.
  - intros k r Hk Hexp. apply map_lookup_filter_None. right.
    intros r' Hk' Hnot. simplify_eq. by apply Hnot.
  - intros k r Hk Hexp. apply map_lookup_filter_Some. split; [done|].
    unfold stale. simpl. lia.
  - intros k Hk. apply map_lookup_filter_None. by left.
  - done.
  - rewrite <- (map_filter_union_complement (stale now) db) at 2.
    rewrite map_size_disj_union by apply map_disjoint_filter_complement.
    lia.
Qed.

Lemma flushExpired_exact_witness :
  ∃ db' n,
    flushExpired 102 Scenario.watched = Some (db', n)
    ∧ db' !! "198.51.100.4" = None
    ∧ db' !! Scenario.client = Some (mkRecord 5 160000 true)
    ∧ n = 1.
Proof.
  destruct (flushExpired_exact 102 Scenario.watched)
    as (db' & n & Hrun & Hdel & Hkeep & _ & Hn & _).
  exists db', n. split; [exact Hrun|]. split.
  - apply (Hdel "198.51.100.4" (mkRecord 3 101000 false));
      [reflexivity | discriminate].
  - split.
    + apply (Hkeep Scenario.client (mkRecord 5 160000 true)); reflexivity.
    + rewrite Hn. vm_compute. reflexivity.
Defined.

Lemma increment_preserves thr key blk ttl secs (db : gmap string SuspicionRecord) :
  (∀ k r, db !! k = Some r → record_ok thr r) →
  ∀ k r, (increment key thr blk ttl secs db).1 !! k = Some r → record_ok thr r.
Proof.
  intros Hinv k r. destruct (decide (k = key)) as [->|Hne].
  - unfold increment. destruct (db !! key) as [r0|] eqn:Hk.
    + pose proof (Hinv _ _ Hk) as [Hpos Hblk].
      destruct (expiry r0 <=? now_ms secs); simpl.
      * rewrite lookup_insert_eq. intros [= <-]. by split.
      * destruct (Z.geb_spec (score r0 + 1) thr) as [Hthr|Hthr]; simpl;
          rewrite lookup_insert_eq; intros [= <-]; split; simpl; try lia.
        intros Hb. specialize (Hblk Hb). lia.
    + simpl. rewrite lookup_insert_eq. intros [= <-]. by split.
  - rewrite increment_frame; [|done]. apply Hinv.
Qed.

(** C9.  In every store reachable from the empty one by [scripts.increment]
    (at one configured threshold) and [scripts.flushExpired], every record
    has a non-negative score and is flagged blocked only with a score at
    or above the threshold. *)
Theorem reachable_invariant thr (db : gmap string SuspicionRecord) k r :
  reachable thr db → db !! k = Some r →
  0 ≤ score r ∧ (isBlocked r = true → thr ≤ score r).
Proof.
  intros Hreach. revert k r.
  induction Hreach as [|db key blk ttl secs _ IH|db secs db' n _ IH Hflush];
    intros k r.
  - by rewrite lookup_empty.
  - by apply increment_preserves.
  - rewrite flushExpired_eq in Hflush. simplify_eq.
    intros [Hk _]%map_lookup_filter_Some. by eapply IH.
Qed.

Lemma reachable_invariant_witness :
  0 ≤ 2 ∧ (true = true → 2 ≤ 2).
Proof.
  apply (reachable_invariant 2
           (increment "10.0.0.7" 2 60000 1000 0
              (increment "10.0.0.7" 2 60000 1000 0 ∅).1).1
           "10.0.0.7" (mkRecord 2 60000 true)).
  - do 2 apply reach_increment. apply reach_empty.
  - vm_compute. reflexivity.
Defined.

(** Five hits in a row score 1 to 5, and the fifth blocks. *)
Example escalation :
  (hits 5 "203.0.113.9" ∅).1 = [1; 2; 3; 4; 5]
  ∧ (hits 4 "203.0.113.9" ∅).2 !! "203.0.113.9"
    = Some (mkRecord 4 101000 false)
  ∧ (hits 5 "203.0.113.9" ∅).2 !! "203.0.113.9"
    = Some (mkRecord 5 160000 true).
Proof. repeat split; vm_compute; reflexivity. Qed.

(** A record at score 3 whose expiry has passed restarts at 1. *)
Example expiry_reset :
  increment "203.0.113.9" 5 60000 1000 102
    {[ "203.0.113.9" := mkRecord 3 101000 false ]}
  = ({[ "203.0.113.9" := mkRecord 1 103000 false ]}, 1).
Proof. vm_compute. reflexivity. Qed.

End SuspicionFacts.

(** ** The in-memory leaky bucket *)

Module LeakyFacts.
Import LeakyBucket.

Lemma get_present st key now c :
  clients st !! key = Some c →
  get key now st =
    (Some (mkInfo (remaining (updateBucket st now c))
                  (resetAt st (updateBucket st now c))),
     set_clients st (<[key := updateBucket st now c]> (clients st))).
Proof. intros Hc. unfold get. by rewrite Hc. Qed.

Lemma get_absent st key now :
  clients st !! key = None → get key now st = (None, st).
Proof. intros Hc. unfold get. by rewrite Hc. Qed.

Lemma updateBucket_no_loss st now c :
  lastUpdated c ≤ now →
  (0 <= leakRate st)%Q →
  (remaining c <= bucketCapacity st)%Q →
  (remaining c <= remaining (updateBucket st now c))%Q.
Proof.
  intros Ht Hr Hc. unfold updateBucket. simpl.
  apply Q.min_glb; [|done].
  assert (0 <= inject_Z (now - lastUpdated c))%Q as He.
  { change 0%Q with (inject_Z 0). rewrite <- Zle_Qle. lia. }
  pose proof (Qmult_le_0_compat _ _ He Hr). lra.
Qed.

Lemma updateBucket_same_instant st now r :
  (r <= bucketCapacity st)%Q →
  (remaining (updateBucket st now (mkClient r now)) == r)%Q.
Proof.
  intros Hr. unfold updateBucket. simpl. rewrite Z.sub_diag.
  rewrite Q.min_l; [ring|].
  change (inject_Z 0) with 0%Q. lra.
Qed.

Lemma increment_fresh st key now :
  clients st !! key = None →
  (0 < bucketCapacity st)%Q →
  (totalHits (increment key now st).1 == bucketCapacity st - 1)%Q.
Proof.
  intros Hk Hcap. unfold increment, getClient. rewrite Hk. cbv zeta.
  set (c := updateBucket st now _).
  assert (remaining c == bucketCapacity st)%Q as Hc.
  { subst c. apply updateBucket_same_instant. lra. }
  clearbody c.
  destruct (Qle_bool (remaining c) 0) eqn:Hle.
  - apply Qle_bool_iff in Hle. lra.
  - simpl. lra.
Qed.


Lemma create_window cap w :
  ¬ (cap == 0)%Q → ¬ (w == 0)%Q →
  let st := create (mkOptions (Some cap) (Some w)) in
  (bucketCapacity st / leakRate st == w)%Q.
Proof. intros Hc Hw. simpl. field. split; done. Qed.




(** Whenever the leak leaves a remaining strictly between 0 and 1,
    [increment] stores and reports a negative value. *)
Lemma increment_fractional st key now :
  let c := updateBucket st now (getClient st key now) in
  (0 < remaining c)%Q → (remaining c < 1)%Q →
  ∃ c', clients (increment key now st).2 !! key = Some c'
        ∧ (remaining c' == remaining c - 1)%Q
        ∧ (remaining c' < 0)%Q
        ∧ (totalHits (increment key now st).1 < 0)%Q.
Proof.
  intros c Hlo Hhi. unfold increment. fold c. clearbody c.
  destruct (Qle_bool (remaining c) 0) eqn:Hle.
  - apply Qle_bool_iff in Hle. lra.
  - simpl. rewrite lookup_insert_eq. eexists. split; [done|]. simpl.
    repeat split; lra.
Qed.

Lemma updateBucket_capped st now c :
  (remaining (updateBucket st now c) <= bucketCapacity st)%Q.
Proof. apply Q.le_min_r. Qed.

Lemma step_capped st op : capped st → capped (step st op).
Proof.
  intros Hst key c. destruct op as [k now|k|k now|k|]; simpl.
  - unfold increment.
    pose proof (updateBucket_capped st now (getClient st k now)) as Hu.
    destruct (Qle_bool _ 0); simpl;
      (destruct (decide (key = k)) as [->|Hne];
       [rewrite lookup_insert_eq; intros [= <-]; simpl in Hu |- *; lra
       |rewrite lookup_insert_ne by done; apply Hst]).
  - unfold decrement. destruct (clients st !! k) as [c0|] eqn:Hk; [|apply Hst].
    simpl. destruct (decide (key = k)) as [->|Hne].
    + rewrite lookup_insert_eq. intros [= <-]. simpl. apply Q.le_min_r.
    + rewrite lookup_insert_ne by done. apply Hst.
  - unfold get. destruct (clients st !! k) as [c0|] eqn:Hk; [|apply Hst].
    simpl. destruct (decide (key = k)) as [->|Hne].
    + rewrite lookup_insert_eq. intros [= <-]. apply updateBucket_capped.
    + rewrite lookup_insert_ne by done. apply Hst.
  - destruct (decide (key = k)) as [->|Hne].
    + by rewrite lookup_delete_eq.
    + rewrite lookup_delete_ne by done. apply Hst.
  - by rewrite lookup_empty.
Qed.

(** The upper half of the bound does hold after every call. *)
Lemma run_capped ops : ∀ st, capped st → capped (run st ops).
Proof.
  induction ops as [|op ops IH]; intros st Hst; [done|].
  simpl. apply IH. by apply step_capped.
Qed.

(** C1.  The bound [0 <= remaining] fails in the leaky bucket.  With the
    default options, ten hits at one instant empty the bucket; three seconds
    later the leak has restored half a unit, [increment] finds
    [remaining <= 0] false and subtracts a whole unit: the record and the
    reported [totalHits] are -1/2. *)
Theorem leaky_increment_below_zero :
  let st10 := run default_store burst in
  let info := (increment "203.0.113.9" 3000 st10).1 in
  let st11 := (increment "203.0.113.9" 3000 st10).2 in
  (∃ c, clients st10 !! "203.0.113.9" = Some c ∧ (remaining c == 0)%Q)
  ∧ (∃ c, clients (step st10 (OpGet "203.0.113.9" 3000)) !! "203.0.113.9" = Some c
          ∧ (remaining c == 1 # 2)%Q)
  ∧ (totalHits info == - (1 # 2))%Q
  ∧ (∃ c, clients st11 !! "203.0.113.9" = Some c
          ∧ (remaining c == - (1 # 2))%Q
          ∧ ¬ in_bounds st11 c).
Proof.
  repeat apply conj.
  - eexists. split; [vm_compute; reflexivity|]. vm_compute. reflexivity.
  - eexists. split; [vm_compute; reflexivity|]. vm_compute. reflexivity.
  - vm_compute. reflexivity.
  - eexists. split; [vm_compute; reflexivity|]. split.
    + vm_compute. reflexivity.
    + intros [Hlo _]. vm_compute in Hlo. by apply Hlo.
Qed.

End LeakyFacts.

(** ** The Postgres token bucket *)

Module TokenFacts.
Import TokenBucket.

Ltac run_calls :=
  unfold increment, decrement, try_catch_finally, connect, release,
    query_begin, query_select_for_update, query_upsert, query_update_tokens,
    query_commit, query_rollback, throw, attempt, mbind, M_bind, mret, M_ret,
    record, set_held, set_txn, set_table, write, view; simpl.

Ltac use_faults :=
  repeat (simpl;
          match goal with
          | H : ?f ?s = _ |- context [?f ?s] => rewrite H
          end);
  simpl.

(** When no statement rejects, [increment] commits the refilled and
    consumed row and leaves the connection as it found it. *)
Lemma increment_ok cfg key now (w : World) :
  idle w →
  faults w SConnect = None →
  first_fault (faults w) increment_steps = None →
  ∃ w', increment cfg key now w =
          (Ok (mkInfo (inject_Z (refill cfg now (table w !! key)).1)
                      (inject_Z (refill cfg now (table w !! key)).2
                       + refillInterval cfg)%Q), w')
    ∧ table w' = <[key := mkRow (refill cfg now (table w !! key)).1 now]> (table w)
    ∧ txn w' = None ∧ held w' = 0%nat
    ∧ log w' = log w ++ [Attempt SConnect; Attempt SBegin; Attempt SSelect;
                          Attempt SUpsert; Attempt SCommit; Release].
Proof.
  destruct w as [t x h l f]. intros [Hx Hh] Hc Hf. simpl in *. subst x h.
  destruct (f SBegin) eqn:H1; [done|].
  destruct (f SSelect) eqn:H2; [done|].
  destruct (f SUpsert) eqn:H3; [done|].
  destruct (f SCommit) eqn:H4; [done|].
  run_calls. use_faults.
  destruct (refill cfg now (t !! key)) as [updated lastRefill]. use_faults.
  eexists. repeat split; simpl.
  by rewrite <- !app_assoc.
Qed.

(** Likewise [decrement] commits one token more, capped at the capacity. *)
Lemma decrement_ok cfg key (w : World) :
  idle w →
  faults w SConnect = None →
  first_fault (faults w) (decrement_steps (bool_decide (is_Some (table w !! key))))
    = None →
  ∃ w', decrement cfg key w = (Ok tt, w')
    ∧ table w' =
        alter (λ r, mkRow (Z.min (tokens r + 1) (bucketCapacity cfg))
                          (last_refill_time r)) key (table w)
    ∧ txn w' = None ∧ held w' = 0%nat
    ∧ log w' = log w ++ Attempt SConnect
                 :: (Attempt <$> decrement_steps
                                   (bool_decide (is_Some (table w !! key))))
                 ++ [Release].
Proof.
  destruct w as [t x h l f]. intros [Hx Hh] Hc Hf. simpl in *. subst x h.
  destruct (f SBegin) eqn:H1; [done|].
  destruct (f SSelect) eqn:H2; [done|].
  destruct (t !! key) as [row|] eqn:Hrow.
  - rewrite bool_decide_true in Hf |- * by (by eexists). simpl in Hf.
    destruct (f SUpdate) eqn:H3; [done|].
    destruct (f SCommit) eqn:H4; [done|].
    run_calls. use_faults.
    eexists. repeat split; simpl.
    + apply map_eq. intros k. rewrite !lookup_alter.
      case_decide; [|done]. subst. by rewrite Hrow.
    + by rewrite <- !app_assoc.
  - rewrite bool_decide_false in Hf |- * by (by intros [? ?]). simpl in Hf.
    destruct (f SCommit) eqn:H4; [done|].
    run_calls. use_faults.
    eexists. repeat split; simpl.
    + apply map_eq. intros k. rewrite !lookup_alter.
      case_decide; [|done]. subst. by rewrite Hrow.
    + by rewrite <- !app_assoc.
Qed.

Lemma get_ok cfg key (w : World) :
  faults w SPoolQuery = None →
  get cfg key w =
    (Ok ((λ row, mkInfo (inject_Z (tokens row))
                   (inject_Z (last_refill_time row) + refillInterval cfg)%Q)
           <$> table w !! key),
     record w (Attempt SPoolQuery)).
Proof.
  intros Hf. destruct w as [t x h l f]. simpl in *.
  unfold get, pool_query, attempt, mbind, M_bind, mret, M_ret. simpl.
  rewrite Hf. simpl. by destruct (t !! key).
Qed.

Lemma resetKey_ok cfg key now (w : World) :
  faults w SPoolQuery = None →
  resetKey cfg key now w =
    (Ok tt,
     set_table (record w (Attempt SPoolQuery))
       (<[key := mkRow (bucketCapacity cfg) now]> (table w))).
Proof.
  intros Hf. destruct w as [t x h l f]. simpl in *.
  unfold resetKey, pool_query, attempt. simpl. by rewrite Hf.
Qed.

(** A rejected [pool.connect()] reaches the caller as it is; nothing was
    begun and no connection is held. *)
Lemma connect_failure cfg key now (w : World) e :
  faults w SConnect = Some e →
  increment cfg key now w = (Throw e, record w (Attempt SConnect))
  ∧ decrement cfg key w = (Throw e, record w (Attempt SConnect)).
Proof.
  intros Hc. destruct w as [t x h l f]. simpl in *.
  split; run_calls; by rewrite Hc.
Qed.






(** The refill arithmetic stays within the bound on a clock that has not
    gone back since the row was written. *)
Lemma refill_in_bounds cfg now result :
  0 ≤ bucketCapacity cfg →
  (0 <= tokensPerInterval cfg)%Q →
  (∀ row, result = Some row →
     0 ≤ tokens row ≤ bucketCapacity cfg ∧ last_refill_time row ≤ now) →
  0 ≤ (refill cfg now result).1 ≤ bucketCapacity cfg.
Proof.
  intros Hcap Hrate Hrow. unfold refill.
  set (cur := match result with Some row => tokens row | None => 0 end).
  set (last := match result with Some row => last_refill_time row | None => now end).
  assert (0 ≤ cur ≤ bucketCapacity cfg ∧ last ≤ now) as [Hcur Hlast].
  { subst cur last. destruct result as [row|]; [by apply Hrow|lia]. }
  replace (match result with
           | Some row => (tokens row, last_refill_time row)
           | None => (0, now)
           end) with (cur, last) by (subst cur last; by destruct result).
  cbv zeta.
  set (add := Qfloor _).
  assert (0 ≤ add) as Hadd.
  { subst add. change 0 with (Qfloor 0). apply Qfloor_resp_le.
    assert (0 <= inject_Z (now - last))%Q as He.
    { change 0%Q with (inject_Z 0). rewrite <- Zle_Qle. lia. }
    apply Qmult_le_0_compat; [|done].
    apply Qle_shift_div_l; lra. }
  clearbody add cur last.
  destruct (Z.ltb_spec 0 (Z.min (cur + add) (bucketCapacity cfg)));
    simpl; lia.
Qed.

(** So the token bucket keeps every row within the bound. *)
Lemma token_calls_within cfg key now (w : World) :
  0 ≤ bucketCapacity cfg →
  (0 <= tokensPerInterval cfg)%Q →
  idle w →
  (∀ s, faults w s = None) →
  within cfg (table w) →
  (∀ row, table w !! key = Some row → last_refill_time row ≤ now) →
  within cfg (table (increment cfg key now w).2)
  ∧ within cfg (table (decrement cfg key w).2)
  ∧ within cfg (table (get cfg key w).2)
  ∧ within cfg (table (resetKey cfg key now w).2)
  ∧ within cfg (table (resetAll w).2).
Proof.
  intros Hcap Hrate Hidle Hf Hin Hlast.
  assert (first_fault (faults w) increment_steps = None) as Hfi.
  { unfold increment_steps. simpl. by rewrite !Hf. }
  assert (first_fault (faults w)
            (decrement_steps (bool_decide (is_Some (table w !! key)))) = None)
    as Hfd.
  { unfold decrement_steps. destruct (bool_decide _); simpl; by rewrite !Hf. }
  repeat apply conj.
  - destruct (increment_ok cfg key now w Hidle (Hf _) Hfi)
      as (w' & Hrun & Htab & _).
    rewrite Hrun. simpl. rewrite Htab. intros k row.
    destruct (decide (k = key)) as [->|Hne].
    + rewrite lookup_insert_eq. intros [= <-]. simpl.
      apply refill_in_bounds; [done|done|].
      intros row Hrow. split; [by eapply Hin|by apply Hlast].
    + rewrite lookup_insert_ne by done. apply Hin.
  - destruct (decrement_ok cfg key w Hidle (Hf _) Hfd)
      as (w' & Hrun & Htab & _).
    rewrite Hrun. simpl. rewrite Htab. intros k row.
    rewrite lookup_alter. case_decide as Hk; [|apply Hin].
    subst k. destruct (table w !! key) as [r|] eqn:Hr; [|done].
    simpl. intros [= <-]. simpl. pose proof (Hin _ _ Hr). lia.
  - rewrite get_ok by apply Hf. by destruct w.
  - rewrite resetKey_ok by apply Hf. destruct w as [t x h l f]. simpl in *.
    intros k row. destruct (decide (k = key)) as [->|Hne].
    + rewrite lookup_insert_eq. intros [= <-]. simpl. lia.
    + rewrite lookup_insert_ne by done. apply Hin.
  - destruct w as [t x h l f]. simpl in *.
    unfold resetAll, pool_query, attempt. simpl. rewrite Hf. simpl.
    intros k row. by rewrite lookup_empty.
Qed.

End TokenFacts.

(** ** What the two rate-limit stores report *)

Module RateLimitFacts.
Import Scenario.


(** The token bucket's [get] applies no refill: it reads no clock at all, and
    a key stored with 0 tokens is reported with 0 tokens however late the
    call comes, not with the 5 that five seconds of refill would give. *)
Lemma token_get_no_refill :
  TokenBucket.table token10_empty !! client = Some (TokenBucket.mkRow 0 1000)
  ∧ (TokenBucket.get token10 client token10_empty).1
      = TokenBucket.Ok (Some (mkInfo 0 2000))
  ∧ ¬ ∃ info,
        (TokenBucket.get token10 client token10_empty).1
          = TokenBucket.Ok (Some info)
        ∧ (totalHits info == 5)%Q.
Proof.
  split; [vm_compute; reflexivity|].
  split; [vm_compute; reflexivity|].
  intros (info & Hget & Hhits). vm_compute in Hget.
  injection Hget as <-. vm_compute in Hhits. discriminate.
Qed.

(** C2, as the code has it.  On an existing record, the leaky bucket's [get] adds the
    leak pending since [lastUpdated], capped at the capacity, stores that
    with [lastUpdated = now] and reports it, never less than before on a
    clock that has not gone back (5 in the example: empty at 1000, read at
    6000, capacity 10, one unit per second).  The token bucket's [get]
    reports the stored tokens as they are and leaves the table alone (0 in
    the example).  Neither subtracts a unit. *)
Theorem get_snapshot :
  (∀ st key now c,
     LeakyBucket.clients st !! key = Some c →
     let r := Qmin (LeakyBucket.remaining c
                    + inject_Z (now - LeakyBucket.lastUpdated c)
                      * LeakyBucket.leakRate st)%Q
                   (LeakyBucket.bucketCapacity st) in
     (∃ info, (LeakyBucket.get key now st).1 = Some info ∧ totalHits info = r)
     ∧ (LeakyBucket.get key now st).2
       = LeakyBucket.set_clients st
           (<[key := LeakyBucket.mkClient r now]> (LeakyBucket.clients st))
     ∧ (LeakyBucket.lastUpdated c ≤ now →
        (0 <= LeakyBucket.leakRate st)%Q →
        (LeakyBucket.remaining c <= LeakyBucket.bucketCapacity st)%Q →
        (LeakyBucket.remaining c <= r)%Q))
  ∧ (∀ cfg key (w : TokenBucket.World) row,
       TokenBucket.faults w TokenBucket.SPoolQuery = None →
       TokenBucket.table w !! key = Some row →
       (TokenBucket.get cfg key w).1
       = TokenBucket.Ok
           (Some (mkInfo (inject_Z (TokenBucket.tokens row))
                    (inject_Z (TokenBucket.last_refill_time row)
                     + TokenBucket.refillInterval cfg)%Q))
       ∧ TokenBucket.table (TokenBucket.get cfg key w).2 = TokenBucket.table w)
  ∧ (∃ c info,
       LeakyBucket.clients leaky10_empty !! client = Some c
       ∧ (LeakyBucket.remaining c == 0)%Q
       ∧ LeakyBucket.lastUpdated c = 1000
       ∧ (LeakyBucket.get client 6000 leaky10_empty).1 = Some info
       ∧ (totalHits info == 5)%Q)
  ∧ (TokenBucket.table token10_empty !! client = Some (TokenBucket.mkRow 0 1000)
     ∧ (TokenBucket.get token10 client token10_empty).1
       = TokenBucket.Ok (Some (mkInfo 0 2000))).
Proof.
  repeat apply conj.
  - intros st key now c Hc r.
    rewrite (LeakyFacts.get_present _ _ _ _ Hc). simpl.
    split; [by eexists|]. split; [done|].
    apply LeakyFacts.updateBucket_no_loss.
  - intros cfg key w row Hf Hrow.
    rewrite (TokenFacts.get_ok _ _ _ Hf), Hrow. split; [done|].
    by destruct w.
  - eexists _, _. split; [vm_compute; reflexivity|].
    split; [vm_compute; reflexivity|]. split; [reflexivity|].
    split; [vm_compute; reflexivity|]. vm_compute. reflexivity.
  - vm_compute. reflexivity.
  - vm_compute. reflexivity.
Qed.

Lemma get_snapshot_witness :
  (TokenBucket.get token10 client token10_used).1
  = TokenBucket.Ok
      (Some (mkInfo (inject_Z 3) (inject_Z 0 + TokenBucket.refillInterval token10)%Q))
  ∧ TokenBucket.table (TokenBucket.get token10 client token10_used).2
    = TokenBucket.table token10_used.
Proof.
  apply (proj1 (proj2 get_snapshot) token10 client token10_used
           (TokenBucket.mkRow 3 0)); reflexivity.
Defined.

(** In the leaky bucket [resetKey] deletes the client, so a [get] right
    after it finds nothing to report. *)
Lemma leaky_get_after_reset_absent :
  (∃ c, LeakyBucket.clients leaky10_empty !! client = Some c)
  ∧ (LeakyBucket.get client 1000
       (LeakyBucket.resetKey client leaky10_empty)).1 = None
  ∧ ¬ ∃ info,
        (LeakyBucket.get client 1000
           (LeakyBucket.resetKey client leaky10_empty)).1 = Some info
        ∧ (totalHits info == LeakyBucket.bucketCapacity leaky10_empty)%Q.
Proof.
  split; [eexists; vm_compute; reflexivity|].
  split; [vm_compute; reflexivity|].
  intros (info & Hget & _). vm_compute in Hget. discriminate.
Qed.

(** C4, as the code has it.  The token bucket's [resetKey], when its query
    goes through, stores the key with full capacity and
    [last_refill_time = now], and a [get] right after reports the capacity.
    The leaky bucket's [resetKey] deletes the client, and a [get] right
    after returns nothing. *)
Theorem resetKey_then_get :
  (∀ cfg key now (w : TokenBucket.World),
     TokenBucket.faults w TokenBucket.SPoolQuery = None →
     let w1 := (TokenBucket.resetKey cfg key now w).2 in
     (TokenBucket.resetKey cfg key now w).1 = TokenBucket.Ok tt
     ∧ TokenBucket.table w1 !! key
       = Some (TokenBucket.mkRow (TokenBucket.bucketCapacity cfg) now)
     ∧ ∃ info,
         (TokenBucket.get cfg key w1).1 = TokenBucket.Ok (Some info)
         ∧ totalHits info = inject_Z (TokenBucket.bucketCapacity cfg))
  ∧ (∀ st key now,
       LeakyBucket.clients (LeakyBucket.resetKey key st) !! key = None
       ∧ LeakyBucket.get key now (LeakyBucket.resetKey key st)
         = (None, LeakyBucket.resetKey key st)).
Proof.
  split.
  - intros cfg key now w Hf w1. subst w1.
    rewrite (TokenFacts.resetKey_ok _ _ _ _ Hf). simpl.
    rewrite TokenFacts.get_ok by (by destruct w). simpl.
    rewrite lookup_insert_eq. simpl. repeat split. by eexists.
  - intros st key now.
    assert (LeakyBucket.clients (LeakyBucket.resetKey key st) !! key = None)
      as Hk by apply lookup_delete_eq.
    split; [done|]. by apply LeakyFacts.get_absent.
Qed.

Lemma resetKey_then_get_witness :
  (TokenBucket.resetKey token10 client 7000 token10_used).1 = TokenBucket.Ok tt
  ∧ TokenBucket.table (TokenBucket.resetKey token10 client 7000 token10_used).2
      !! client
    = Some (TokenBucket.mkRow (TokenBucket.bucketCapacity token10) 7000)
  ∧ ∃ info,
      (TokenBucket.get token10 client
         (TokenBucket.resetKey token10 client 7000 token10_used).2).1
      = TokenBucket.Ok (Some info)
      ∧ totalHits info = 10%Q.
Proof.
  apply (proj1 resetKey_then_get token10 client 7000 token10_used).
  reflexivity.
Defined.





End RateLimitFacts.

(** ** The shield *)

Module ShieldFacts.
Import Shield.

Section Detector.
Context {RegExp : Type}.
Variable test : RegExp → string → bool.
Variables xssPatterns sqlPatterns lfiPatterns : list RegExp.

#[local] Abbreviation detect :=
  (detectMaliciousRequest test xssPatterns sqlPatterns lfiPatterns).

Lemma detect_three_flags req (o1 o2 : ShieldOptions RegExp) :
  xss o1 = xss o2 → sqlInjection o1 = sqlInjection o2 → lfi o1 = lfi o2 →
  detect req o1 = detect req o2.
Proof.
  intros Hx Hs Hl. unfold detectMaliciousRequest. by rewrite Hx, Hs, Hl.
Qed.

Lemma detect_names req (o : ShieldOptions RegExp) name :
  name ∈ (detect req o).2 → name ∈ ["XSS"; "SQL Injection"; "LFI"].
Proof.
  unfold detectMaliciousRequest, push_if. simpl.
  destruct (truthy (xss o) && _), (truthy (sqlInjection o) && _),
    (truthy (lfi o) && _); simpl;
    rewrite !elem_of_cons, !elem_of_nil; tauto.
Qed.

(** C10.  [detectMaliciousRequest] reads only the flags [xss],
    [sqlInjection] and [lfi]: options that agree on them give the same
    result, in particular options that differ only in [csrf], [rfi] and
    [shellInjection]; every name returned is one of XSS, SQL Injection and
    LFI, and [isSuspicious] says whether any was. *)
Theorem detector_depends_on_three_flags req :
  (∀ o1 o2 : ShieldOptions RegExp,
     xss o1 = xss o2 → sqlInjection o1 = sqlInjection o2 → lfi o1 = lfi o2 →
     detect req o1 = detect req o2)
  ∧ (∀ thr blk pats msg c x s l r sh c' r' sh',
       detect req (mkShieldOptions thr blk pats msg c x s l r sh)
       = detect req (mkShieldOptions thr blk pats msg c' x s l r' sh'))
  ∧ (∀ (o : ShieldOptions RegExp) name,
       name ∈ (detect req o).2 → name ∈ ["XSS"; "SQL Injection"; "LFI"])
  ∧ (∀ o : ShieldOptions RegExp,
       (detect req o).1 = bool_decide ((detect req o).2 ≠ [])).
Proof.
  repeat apply conj.
  - apply detect_three_flags.
  - intros. by apply detect_three_flags.
  - apply detect_names.
  - intros o. unfold detectMaliciousRequest. simpl.
    apply bool_decide_ext.
    destruct (push_if _ _ _) as [|a l]; simpl; split; first [done | lia].
Qed.

Context {S : Type}.
Variable store_isBlocked : string → S → bool * S.
Variable store_increment : string → Z → S → Z * S.

#[local] Abbreviation gate := (middleware test xssPatterns sqlPatterns lfiPatterns
                    store_isBlocked store_increment).

(** C8.  [middleware] in order, leaving at the first match: a request whose
    [req.ip] is undefined or empty is denied with no call at all; a blocked
    key is denied after the blocked check alone, the detector not run and
    no score incremented; a request the detector passes goes on after the
    blocked check and the detector, with no increment; a suspicious request
    increments the store once, and is denied with the detected names when
    the score returned is at least the threshold, and goes on otherwise. *)
Theorem gate_order (this : ZShield RegExp) req (st : S) :
  let deny := Deny (message (z_options this)) in
  (ip req = None ∨ ip req = Some "" →
   gate this req st = (deny None, st, []))
  ∧ (∀ key st1,
       ip req = Some key → key ≠ "" →
       store_isBlocked key st = (true, st1) →
       gate this req st = (deny None, st1, [CallIsBlocked key]))
  ∧ (∀ key st1,
       ip req = Some key → key ≠ "" →
       store_isBlocked key st = (false, st1) →
       (detect req (z_options this)).1 = false →
       gate this req st = (Next, st1, [CallIsBlocked key; CallDetect]))
  ∧ (∀ key st1 score st2,
       ip req = Some key → key ≠ "" →
       store_isBlocked key st = (false, st1) →
       (detect req (z_options this)).1 = true →
       store_increment key (z_blockDurationMs this) st1 = (score, st2) →
       let calls := [CallIsBlocked key; CallDetect;
                     CallIncrement key (z_blockDurationMs this)] in
       (z_suspicionThreshold this ≤ score →
        gate this req st
        = (deny (Some (detect req (z_options this)).2), st2, calls))
       ∧ (score < z_suspicionThreshold this →
          gate this req st = (Next, st2, calls))).
Proof.
  intros deny. subst deny.
  unfold middleware, middleware_body, call_isBlocked, call_detect,
    call_increment, mbind, Gate_bind, mret, Gate_ret.
  repeat apply conj.
  - by intros [->| ->].
  - intros key st1 Hip Hne Hb. rewrite Hip. simpl.
    rewrite bool_decide_false by done. by rewrite Hb.
  - intros key st1 Hip Hne Hb Hd.
    destruct (detectMaliciousRequest _ _ _ _ _ _) as [susp types].
    simpl in Hd. subst susp. rewrite Hip. simpl.
    rewrite bool_decide_false by done. by rewrite Hb.
  - intros key st1 score st2 Hip Hne Hb Hd Hinc.
    destruct (detectMaliciousRequest _ _ _ _ _ _) as [susp types].
    simpl in Hd. subst susp. rewrite Hip. simpl.
    rewrite bool_decide_false by done. rewrite Hb. simpl. rewrite Hinc.
    split; intros Hs.
    + destruct (Z.geb_spec score (z_suspicionThreshold this)); [done|lia].
    + destruct (Z.geb_spec score (z_suspicionThreshold this)); [lia|done].
Qed.

End Detector.

Import Scenario.

Lemma gate_order_witness :
  let gate := middleware contains xss_literals sql_literals lfi_literals
                toy_isBlocked toy_increment (constructor no_options) in
  let deny := Deny (message (z_options (constructor no_options))) in
  let calls := [CallIsBlocked client; CallDetect;
                CallIncrement client
                  (z_blockDurationMs (constructor no_options))] in
  gate unaddressed {[ client := 2 ]} = (deny None, {[ client := 2 ]}, [])
  ∧ gate probe {[ client := 5 ]}
    = (deny None, {[ client := 5 ]}, [CallIsBlocked client])
  ∧ gate harmless {[ client := 4 ]}
    = (Next, {[ client := 4 ]}, [CallIsBlocked client; CallDetect])
  ∧ gate probe ∅ = (Next, {[ client := 1 ]}, calls)
  ∧ gate probe {[ client := 4 ]}
    = (deny (Some (detectMaliciousRequest contains xss_literals sql_literals
                     lfi_literals probe
                     (z_options (constructor no_options))).2),
       {[ client := 5 ]}, calls).
Proof.
  intros gate deny calls. subst gate deny calls. repeat apply conj.
  - apply (proj1 (gate_order contains xss_literals sql_literals lfi_literals
                    toy_isBlocked toy_increment (constructor no_options)
                    unaddressed {[ client := 2 ]})).
    left. reflexivity.
  - apply (proj1 (proj2
             (gate_order contains xss_literals sql_literals lfi_literals
                toy_isBlocked toy_increment (constructor no_options)
                probe {[ client := 5 ]})) client {[ client := 5 ]});
      [reflexivity | discriminate | vm_compute; reflexivity].
  - apply (proj1 (proj2 (proj2
             (gate_order contains xss_literals sql_literals lfi_literals
                toy_isBlocked toy_increment (constructor no_options)
                harmless {[ client := 4 ]}))) client {[ client := 4 ]});
      [reflexivity | discriminate | vm_compute; reflexivity
      | vm_compute; reflexivity].
  - refine (proj2 (proj2 (proj2 (proj2
              (gate_order contains xss_literals sql_literals lfi_literals
                 toy_isBlocked toy_increment (constructor no_options) probe ∅)))
              client ∅ 1 {[ client := 1 ]} eq_refl _ _ _ _) _);
      [discriminate | vm_compute; reflexivity | vm_compute; reflexivity
      | vm_compute; reflexivity | reflexivity].
  - refine (proj1 (proj2 (proj2 (proj2
              (gate_order contains xss_literals sql_literals lfi_literals
                 toy_isBlocked toy_increment (constructor no_options) probe
                 {[ client := 4 ]})))
              client {[ client := 4 ]} 5 {[ client := 5 ]} eq_refl _ _ _ _) _);
      [discriminate | vm_compute; reflexivity | vm_compute; reflexivity
      | vm_compute; reflexivity | discriminate].
Defined.

Lemma detector_depends_on_three_flags_witness :
  detectMaliciousRequest contains xss_literals sql_literals lfi_literals probe
    (mkShieldOptions (Some 5) (Some 60000) None None
       (Some true) (Some true) (Some true) (Some true) (Some true) (Some true))
  = detectMaliciousRequest contains xss_literals sql_literals lfi_literals probe
      (mkShieldOptions (Some 9) None None (Some "no")
         None (Some true) (Some true) (Some true) (Some false) None).
Proof.
  apply (proj1 (detector_depends_on_three_flags contains xss_literals
                  sql_literals lfi_literals probe)); reflexivity.
Defined.

Example detector_on_probe :
  detectMaliciousRequest contains xss_literals sql_literals lfi_literals probe
    (z_options (constructor no_options))
  = (true, ["XSS"]).
Proof. vm_compute. reflexivity. Qed.

End ShieldFacts.
